(** * Verification of [algebra.cc]: [Square] and [Cube] on fixed-width [int]

    The source file defines two free functions,

      int Cube(int number)   { return number * number * number; }
      int Square(int number) { return number * number; }

    The C++ type [int] is a two's-complement signed integer of some width
    [w] (at least 16 bits, 32 on the usual platforms).  A value of that
    type is represented here by the mathematical integer it denotes, and
    the machine multiplication by the exact product truncated to its low
    [w] bits and read back as a signed number.  ISO C++ gives a signed
    overflow no defined result; the truncating product is what the
    hardware multiplier returns and agrees with the language wherever the
    language defines the result (see [Square_defined_agrees] and
    [Cube_defined_agrees] below). *)

From Stdlib Require Import ZArith Lia Bool.

Local Open Scope Z_scope.

(** ** The integer type *)

Section FixedWidth.

(** Number of bits of [int]. *)
Variable w : Z.

Definition modulus : Z := 2 ^ w.
Definition half_modulus : Z := 2 ^ (w - 1).
Definition min_int : Z := - half_modulus.
Definition max_int : Z := half_modulus - 1.

(** The values an [int] can hold. *)
Definition in_range (z : Z) : Prop := min_int <= z <= max_int.

Definition in_rangeb (z : Z) : bool := (min_int <=? z) && (z <=? max_int).

(** The low [w] bits of an integer: its bit pattern as an unsigned number. *)
Definition low_bits (z : Z) : Z := Z.land z (Z.ones w).

(** A [w]-bit pattern read as a two's-complement number: the top bit
    carries the weight [- 2^(w-1)]. *)
Definition to_signed (u : Z) : Z :=
  if Z.testbit u (w - 1) then u - modulus else u.

Definition wrap (z : Z) : Z := to_signed (low_bits z).

(** [a * b] and [- a] on [int]. *)
Definition int_mul (a b : Z) : Z := wrap (a * b).
Definition int_neg (a : Z) : Z := wrap (- a).

(** ** The two functions of [algebra.cc]

    [number * number * number] associates to the left. *)

Definition Cube (number : Z) : Z :=
  int_mul (int_mul number number) number.

Definition Square (number : Z) : Z :=
  int_mul number number.

(** ** The language-level reading

    A product that does not fit has no defined result: [None]. *)

Definition checked_mul (a b : Z) : option Z :=
  if in_rangeb (a * b) then Some (a * b) else None.

Definition Cube_defined (number : Z) : option Z :=
  match checked_mul number number with
  | Some sq => checked_mul sq number
  | None => None
  end.

Definition Square_defined (number : Z) : option Z :=
  checked_mul number number.

(** ** The wrapped value, in the words of the specification

    "The mathematical product reduced modulo [2^w] and reinterpreted as
    a signed integer". *)

Definition reduce_mod (z : Z) : Z := z mod 2 ^ w.

Definition reinterpret_signed (r : Z) : Z :=
  if r <? 2 ^ (w - 1) then r else r - 2 ^ w.

Definition wrapped_value (z : Z) : Z := reinterpret_signed (reduce_mod z).

End FixedWidth.

(** Decides membership of a literal in the 32-bit range. *)
Ltac range32 :=
  unfold in_range, min_int, max_int, half_modulus; simpl; lia.

(** ** Arithmetic of the representation *)

Section WrapFacts.

Variable w : Z.
Hypothesis w_pos : 0 < w.

Lemma modulus_pos : 0 < modulus w.
Proof. unfold modulus. apply Z.pow_pos_nonneg; lia. Qed.

Lemma half_modulus_pos : 0 < half_modulus w.
Proof. unfold half_modulus. apply Z.pow_pos_nonneg; lia. Qed.

Lemma modulus_double : modulus w = 2 * half_modulus w.
Proof.
  unfold modulus, half_modulus.
  replace w with (Z.succ (w - 1)) at 1 by lia.
  apply Z.pow_succ_r. lia.
Qed.

Lemma low_bits_mod z : low_bits w z = z mod modulus w.
Proof. unfold low_bits, modulus. apply Z.land_ones. lia. Qed.

Lemma low_bits_bound z : 0 <= low_bits w z < modulus w.
Proof. rewrite low_bits_mod. apply Z.mod_pos_bound, modulus_pos. Qed.

(** On a [w]-bit pattern the top bit is set exactly from [2^(w-1)] on. *)
Lemma top_bit u :
  0 <= u < modulus w ->
  Z.testbit u (w - 1) = (half_modulus w <=? u).
Proof.
  intros Hu.
  pose proof half_modulus_pos as Hh.
  pose proof modulus_double as Hd.
  pose proof (Z.testbit_spec' u (w - 1) ltac:(lia)) as Hb.
  fold (half_modulus w) in Hb.
  destruct (Z.leb_spec (half_modulus w) u) as [Hle | Hlt].
  - assert (Hq : u / half_modulus w = 1).
    { symmetry. apply (Z.div_unique u (half_modulus w) 1 (u - half_modulus w)); lia. }
    rewrite Hq in Hb. change (1 mod 2) with 1 in Hb.
    destruct (Z.testbit u (w - 1)); [reflexivity | discriminate].
  - rewrite Z.div_small in Hb by lia. change (0 mod 2) with 0 in Hb.
    destruct (Z.testbit u (w - 1)); [discriminate | reflexivity].
Qed.

Lemma to_signed_in_range u :
  0 <= u < modulus w -> in_range w (to_signed w u).
Proof.
  intros Hu. unfold to_signed, in_range, min_int, max_int.
  rewrite (top_bit u Hu).
  pose proof modulus_double.
  destruct (Z.leb_spec (half_modulus w) u); lia.
Qed.

Lemma to_signed_congr u :
  0 <= u < modulus w -> exists k, to_signed w u = u + k * modulus w.
Proof.
  intros Hu. unfold to_signed.
  destruct (Z.testbit u (w - 1)).
  - exists (-1). lia.
  - exists 0. lia.
Qed.

Lemma wrap_in_range z : in_range w (wrap w z).
Proof. apply to_signed_in_range, low_bits_bound. Qed.

(** [wrap z] differs from [z] by a multiple of [2^w]. *)
Lemma wrap_congr z : exists k, wrap w z = z + k * modulus w.
Proof.
  destruct (to_signed_congr (low_bits w z) (low_bits_bound z)) as [k Hk].
  unfold wrap. rewrite Hk, low_bits_mod.
  pose proof modulus_pos as Hm.
  exists (k - z / modulus w).
  pose proof (Z.div_mod z (modulus w) ltac:(lia)). nia.
Qed.

(** Two values of the type that differ by a multiple of [2^w] are equal. *)
Lemma in_range_unique a b k :
  in_range w a -> in_range w b -> a = b + k * modulus w -> a = b.
Proof.
  unfold in_range, min_int, max_int. intros Ha Hb E.
  pose proof modulus_double. pose proof half_modulus_pos.
  assert (k = 0) by nia. subst k. lia.
Qed.

Lemma wrap_eq_of_congr a b k :
  a = b + k * modulus w -> wrap w a = wrap w b.
Proof.
  intros E.
  destruct (wrap_congr a) as [ka Ha]. destruct (wrap_congr b) as [kb Hb].
  apply (in_range_unique _ _ (ka + k - kb)); try apply wrap_in_range.
  lia.
Qed.

Lemma wrap_small z : in_range w z -> wrap w z = z.
Proof.
  intros Hz. destruct (wrap_congr z) as [k Hk].
  apply (in_range_unique _ _ k); auto using wrap_in_range.
Qed.

Lemma wrap_mul_l a b : wrap w (wrap w a * b) = wrap w (a * b).
Proof.
  destruct (wrap_congr a) as [k Hk].
  apply (wrap_eq_of_congr _ _ (k * b)). rewrite Hk. ring.
Qed.

Lemma wrap_mul_r a b : wrap w (a * wrap w b) = wrap w (a * b).
Proof. rewrite (Z.mul_comm a), wrap_mul_l. f_equal. ring. Qed.

Lemma wrap_opp a : wrap w (- wrap w a) = wrap w (- a).
Proof.
  destruct (wrap_congr a) as [k Hk].
  apply (wrap_eq_of_congr _ _ (- k)). rewrite Hk. ring.
Qed.

End WrapFacts.

(** ** Consequences for the two readings of the product *)

Section Products.

Variable w : Z.
Hypothesis w_pos : 0 < w.

Lemma in_rangeb_spec z : in_rangeb w z = true <-> in_range w z.
Proof.
  unfold in_rangeb, in_range.
  rewrite andb_true_iff, !Z.leb_le. reflexivity.
Qed.

Lemma int_mul_in_range a b : in_range w (int_mul w a b).
Proof. apply wrap_in_range, w_pos. Qed.

Lemma int_neg_in_range a : in_range w (int_neg w a).
Proof. apply wrap_in_range, w_pos. Qed.

Lemma int_mul_small a b : in_range w (a * b) -> int_mul w a b = a * b.
Proof. apply wrap_small, w_pos. Qed.

Lemma int_neg_small a : in_range w (- a) -> int_neg w a = - a.
Proof. apply wrap_small, w_pos. Qed.

(** The nested product of [Cube] is the wrapped exact cube. *)
Lemma Cube_wrap n : Cube w n = wrap w (n * n * n).
Proof. unfold Cube, int_mul. apply wrap_mul_l, w_pos. Qed.

Lemma Square_wrap n : Square w n = wrap w (n * n).
Proof. reflexivity. Qed.

(** The bit-level [wrap] is the specification's wrapped value. *)
Lemma wrap_wrapped_value z : wrap w z = wrapped_value w z.
Proof.
  unfold wrap, wrapped_value, reinterpret_signed, reduce_mod, to_signed.
  rewrite (top_bit w w_pos _ (low_bits_bound w w_pos z)).
  rewrite (low_bits_mod w w_pos). unfold modulus, half_modulus.
  rewrite Z.leb_antisym.
  destruct (z mod 2 ^ w <? 2 ^ (w - 1)); reflexivity.
Qed.

Lemma checked_mul_Some a b v :
  checked_mul w a b = Some v <-> in_range w (a * b) /\ v = a * b.
Proof.
  unfold checked_mul.
  destruct (in_rangeb w (a * b)) eqn:E.
  - apply in_rangeb_spec in E. split.
    + intros [= <-]. auto.
    + intros [_ ->]. reflexivity.
  - split; [discriminate |].
    intros [H _]. apply in_rangeb_spec in H. congruence.
Qed.

(** Where the language defines the product, the machine returns it. *)
Lemma checked_mul_agrees a b v :
  checked_mul w a b = Some v -> int_mul w a b = v.
Proof.
  intros H. apply checked_mul_Some in H as [Hr ->].
  apply int_mul_small, Hr.
Qed.

Lemma Square_defined_agrees n v :
  Square_defined w n = Some v -> Square w n = v.
Proof. apply checked_mul_agrees. Qed.

Lemma Cube_defined_agrees n v :
  Cube_defined w n = Some v -> Cube w n = v.
Proof.
  unfold Cube_defined, Cube.
  destruct (checked_mul w n n) as [sq |] eqn:E; [| discriminate].
  apply checked_mul_agrees in E. rewrite E.
  apply checked_mul_agrees.
Qed.

Lemma Square_defined_safe n :
  in_range w (n * n) -> Square_defined w n = Some (n * n).
Proof. intros H. apply checked_mul_Some. auto. Qed.

(** From two bits on, a cube that fits has a square that fits. *)
Lemma square_fits_of_cube n :
  1 < w -> in_range w (n * n * n) -> in_range w (n * n).
Proof.
  intros Hw. pose proof (modulus_double (w - 1) ltac:(lia)) as Hd.
  pose proof (half_modulus_pos (w - 1) ltac:(lia)) as Hp.
  unfold modulus in Hd. fold (half_modulus w) in Hd.
  unfold in_range, min_int, max_int. rewrite Hd.
  set (h := half_modulus (w - 1)) in *. clearbody h.
  intros [Hlo Hhi].
  assert (n = 0 \/ n = 1 \/ n = -1 \/ 2 <= n \/ n <= -2) as C by lia.
  destruct C as [-> | [-> | [-> | [C | C]]]]; try lia.
  - assert (n * n <= n * n * n) by nia. nia.
  - assert (n * n <= - (n * n * n)) by nia.
    assert (n * n <> 2 * h) by nia. nia.
Qed.

Lemma Cube_defined_safe n :
  1 < w -> in_range w (n * n * n) -> Cube_defined w n = Some (n * n * n).
Proof.
  intros Hw Hc. unfold Cube_defined.
  pose proof (square_fits_of_cube n Hw Hc) as Hs.
  apply Square_defined_safe in Hs. unfold Square_defined in Hs.
  rewrite Hs. apply checked_mul_Some. auto.
Qed.

Lemma Square_nonneg_safe n : in_range w (n * n) -> 0 <= Square w n.
Proof.
  intros H. unfold Square. rewrite int_mul_small by assumption. nia.
Qed.

End Products.

(** ** Symmetry and small constants *)

Section Symmetry.

Variable w : Z.
Hypothesis w_pos : 0 < w.

(** Negating the argument never changes the square, in or out of range. *)
Lemma Square_int_neg n : Square w (int_neg w n) = Square w n.
Proof.
  unfold Square, int_neg, int_mul.
  rewrite (wrap_mul_l w w_pos), (wrap_mul_r w w_pos).
  f_equal. ring.
Qed.

(** Negating the argument negates the cube, in or out of range. *)
Lemma Cube_int_neg n : Cube w (int_neg w n) = int_neg w (Cube w n).
Proof.
  rewrite !(Cube_wrap w w_pos). unfold int_neg.
  rewrite (wrap_opp w w_pos).
  destruct (wrap_congr w w_pos (- n)) as [k Hk].
  pose (M := modulus w).
  apply (wrap_eq_of_congr w w_pos _ _
           (k * (3 * n * n - 3 * n * k * M + k * k * M * M))).
  subst M.
  rewrite Hk. ring.
Qed.

(** An [int] has at least 16 bits, so it holds every 16-bit value. *)
Lemma in_range_int16 z :
  16 <= w -> - 32768 <= z <= 32767 -> in_range w z.
Proof.
  intros Hw Hz.
  assert (H : 2 ^ 15 <= half_modulus w).
  { unfold half_modulus. apply Z.pow_le_mono_r; lia. }
  change (2 ^ 15) with 32768 in H.
  unfold in_range, min_int, max_int. lia.
Qed.

End Symmetry.

(** ** The properties of the specification *)

(** C1.  Within the safe range, that is when the exact square [n * n] is
    representable, [Square n] is [n * n]: the function returns it, and it
    is also the result the language defines. *)
Theorem Square_correct (w n : Z) :
  0 < w -> in_range w (n * n) ->
  Square w n = n * n /\ Square_defined w n = Some (n * n).
Proof.
  intros Hw Hr. split.
  - apply int_mul_small; assumption.
  - apply Square_defined_safe; assumption.
Qed.

Lemma Square_correct_witness :
  in_range 32 (46340 * 46340) /\ Square 32 46340 = 46340 * 46340.
Proof.
  assert (Hr : in_range 32 (46340 * 46340)) by range32.
  split; [exact Hr |].
  exact (proj1 (Square_correct 32 46340 ltac:(lia) Hr)).
Defined.

(** C2.  Within the safe range, that is when the exact cube [n * n * n] is
    representable, [Cube n] is [n * n * n]: the function returns it, and
    it is also the result the language defines. *)
Theorem Cube_correct (w n : Z) :
  1 < w -> in_range w (n * n * n) ->
  Cube w n = n * n * n /\ Cube_defined w n = Some (n * n * n).
Proof.
  intros Hw Hr.
  assert (Hd : Cube_defined w n = Some (n * n * n)).
  { apply Cube_defined_safe; [lia | assumption ..]. }
  split; [| exact Hd].
  apply Cube_defined_agrees; [lia | exact Hd].
Qed.

Lemma Cube_correct_witness :
  in_range 32 (-1290 * -1290 * -1290) /\
  Cube 32 (-1290) = -1290 * -1290 * -1290.
Proof.
  assert (Hr : in_range 32 (-1290 * -1290 * -1290)) by range32.
  split; [exact Hr |].
  exact (proj1 (Cube_correct 32 (-1290) ltac:(lia) Hr)).
Defined.

(** C3.  Even symmetry: for every [n] whose negation and whose square are
    representable, [Square(-n)] equals [Square(n)]. *)
Theorem Square_even_symmetry (w n : Z) :
  0 < w -> in_range w n -> in_range w (- n) -> in_range w (n * n) ->
  Square w (int_neg w n) = Square w n.
Proof.
  intros Hw _ _ _. apply Square_int_neg, Hw.
Qed.

Lemma Square_even_symmetry_witness :
  Square 32 (int_neg 32 46340) = Square 32 46340.
Proof.
  apply Square_even_symmetry; [lia | range32 ..].
Defined.

(** C4.  Odd symmetry: for every [n] whose negation and whose cube are
    representable, [Cube(-n)] equals [-Cube(n)]. *)
Theorem Cube_odd_symmetry (w n : Z) :
  0 < w -> in_range w n -> in_range w (- n) -> in_range w (n * n * n) ->
  Cube w (int_neg w n) = int_neg w (Cube w n).
Proof.
  intros Hw _ _ _. apply Cube_int_neg, Hw.
Qed.

Lemma Cube_odd_symmetry_witness :
  Cube 32 (int_neg 32 1290) = int_neg 32 (Cube 32 1290).
Proof.
  apply Cube_odd_symmetry; [lia | range32 ..].
Defined.

(** C5.  When the exact product leaves the representable range, [Square]
    (and likewise [Cube]) returns the wrapped value: the mathematical
    product reduced modulo [2^w] and read as a signed integer.  The result
    is again a value of the type; nothing is signalled. *)
Theorem overflow_wraps (w n : Z) :
  0 < w ->
  (~ in_range w (n * n) ->
   Square w n = wrapped_value w (n * n) /\ in_range w (Square w n)) /\
  (~ in_range w (n * n * n) ->
   Cube w n = wrapped_value w (n * n * n) /\ in_range w (Cube w n)).
Proof.
  intros Hw. split; intros _; split.
  - rewrite <- (wrap_wrapped_value w Hw). reflexivity.
  - apply int_mul_in_range, Hw.
  - rewrite <- (wrap_wrapped_value w Hw). apply Cube_wrap, Hw.
  - apply int_mul_in_range, Hw.
Qed.

Lemma overflow_wraps_witness :
  (~ in_range 32 (46341 * 46341) /\
   Square 32 46341 = wrapped_value 32 (46341 * 46341)) /\
  (~ in_range 32 (46341 * 46341 * 46341) /\
   Cube 32 46341 = wrapped_value 32 (46341 * 46341 * 46341)).
Proof.
  assert (Hs : ~ in_range 32 (46341 * 46341)) by range32.
  assert (Hc : ~ in_range 32 (46341 * 46341 * 46341)) by range32.
  destruct (overflow_wraps 32 46341 ltac:(lia)) as [HS HC].
  split; split; [exact Hs | exact (proj1 (HS Hs)) | exact Hc | exact (proj1 (HC Hc))].
Defined.

(** C7.  The concrete scenarios, on every width an [int] may have:
    [Square(3) == 9], [Square(-4) == 16], [Cube(3) == 27],
    [Cube(-2) == -8], [Square(0) == 0] and [Cube(0) == 0]. *)
Theorem concrete_scenarios (w : Z) :
  16 <= w ->
  Square w 3 = 9 /\ Square w (int_neg w 4) = 16 /\
  Cube w 3 = 27 /\ Cube w (int_neg w 2) = -8 /\
  Square w 0 = 0 /\ Cube w 0 = 0.
Proof.
  intros Hw.
  assert (Hp : 0 < w) by lia.
  assert (small : forall z, - 32768 <= z <= 32767 -> wrap w z = z).
  { intros z Hz. apply (wrap_small w Hp), in_range_int16; assumption. }
  unfold Cube, Square, int_mul, int_neg.
  repeat split;
    repeat match goal with
           | |- context [wrap w ?z] => rewrite (small z) by lia
           end;
    reflexivity.
Qed.

Lemma concrete_scenarios_witness :
  Square 32 3 = 9 /\ Square 32 (int_neg 32 4) = 16 /\
  Cube 32 3 = 27 /\ Cube 32 (int_neg 32 2) = -8 /\
  Square 32 0 = 0 /\ Cube 32 0 = 0.
Proof.
  apply concrete_scenarios. lia.
Defined.





(** C9.  [Cube n] is [Square n] multiplied once more by [n], with the same
    fixed-width product, for every [n]. *)
Theorem Cube_is_Square_times (w n : Z) :
  Cube w n = int_mul w (Square w n) n.
Proof. reflexivity. Qed.

(** C10.  With a 32-bit [int] the square is representable exactly for
    [|n| <= 46340], and there [Square n >= 0]; beyond, the wrapped result
    can be negative, and can be zero for a nonzero [n]. *)
Theorem Square_sign_32 :
  (forall n, in_range 32 (n * n) <-> Z.abs n <= 46340) /\
  (forall n, in_range 32 (n * n) -> 0 <= Square 32 n) /\
  (exists n, in_range 32 n /\ ~ in_range 32 (n * n) /\ Square 32 n < 0) /\
  (exists n, in_range 32 n /\ n <> 0 /\ ~ in_range 32 (n * n) /\
             Square 32 n = 0).
Proof.
  split; [| split; [| split]].
  - intros n. unfold in_range, min_int, max_int, half_modulus. simpl.
    split; intros H; [| nia].
    destruct (Z.abs_spec n) as [[? ->] | [? ->]]; nia.
  - intros n. apply Square_nonneg_safe. lia.
  - exists 46341. split; [range32 | split; [range32 | reflexivity]].
  - exists 65536. split; [range32 | split; [lia | split; [range32 | reflexivity]]].
Qed.

(** ** Further properties of [Square] and [Cube] *)

Section Congruence.

Variable w : Z.
Hypothesis w_pos : 0 < w.

Lemma wrap_idem z : wrap w (wrap w z) = wrap w z.
Proof. apply (wrap_small w w_pos), (wrap_in_range w w_pos). Qed.

(** The wrapped product only depends on the wrapped factors. *)
Lemma wrap_mul_congr a a' b b' :
  wrap w a = wrap w a' -> wrap w b = wrap w b' ->
  wrap w (a * b) = wrap w (a' * b').
Proof.
  intros Ha Hb.
  rewrite <- (wrap_mul_l w w_pos a b), <- (wrap_mul_r w w_pos (wrap w a) b).
  rewrite Ha, Hb.
  rewrite (wrap_mul_r w w_pos), (wrap_mul_l w w_pos). reflexivity.
Qed.

Lemma wrap_square_arg a : wrap w (wrap w a * wrap w a) = wrap w (a * a).
Proof. apply wrap_mul_congr; apply wrap_idem. Qed.

Lemma wrap_cube_arg a :
  wrap w (wrap w a * wrap w a * wrap w a) = wrap w (a * a * a).
Proof.
  apply wrap_mul_congr; [| apply wrap_idem].
  rewrite wrap_square_arg. reflexivity.
Qed.

(** Truncation to at least one bit keeps the parity. *)
Lemma wrap_even z : Z.even (wrap w z) = Z.even z.
Proof.
  destruct (wrap_congr w w_pos z) as [k ->].
  rewrite (modulus_double w w_pos).
  replace (z + k * (2 * half_modulus w)) with (z + 2 * (k * half_modulus w))
    by ring.
  apply Z.even_add_mul_2.
Qed.

Lemma Square_exact n : in_range w (n * n) -> Square w n = n * n.
Proof. apply int_mul_small, w_pos. Qed.

Lemma Cube_exact n : in_range w (n * n * n) -> Cube w n = n * n * n.
Proof. intros H. rewrite (Cube_wrap w w_pos). apply wrap_small; assumption. Qed.

End Congruence.

Lemma cube_lt (a b : Z) : a < b -> a * a * a < b * b * b.
Proof.
  intros H.
  assert (Hs : 0 <= (a + b) * (a + b)) by apply Z.square_nonneg.
  assert (Ha : 0 <= a * a) by apply Z.square_nonneg.
  assert (Hb : 0 <= b * b) by apply Z.square_nonneg.
  assert (Hn : 0 < a * a + b * b).
  { destruct (Z.eq_dec a 0) as [-> | Ne]; nia. }
  assert (Hq : 0 < a * a + a * b + b * b) by lia.
  assert (Hd : 0 < (b - a) * (a * a + a * b + b * b))
    by (apply Z.mul_pos_pos; lia).
  lia.
Qed.

Lemma cube_lt_iff (a b : Z) : a < b <-> a * a * a < b * b * b.
Proof.
  split; [apply cube_lt |].
  intros H. destruct (Z.lt_trichotomy a b) as [L | [-> | G]]; [exact L | lia |].
  apply cube_lt in G. lia.
Qed.

Lemma square_lt_iff (a b : Z) : Z.abs a < Z.abs b <-> a * a < b * b.
Proof.
  rewrite <- (Z.abs_square a), <- (Z.abs_square b).
  pose proof (Z.abs_nonneg a) as Ha. pose proof (Z.abs_nonneg b) as Hb.
  revert Ha Hb. generalize (Z.abs a) (Z.abs b). intros x y Hx Hy.
  split; intros H; nia.
Qed.

(** X1.  [Square] is multiplicative for the fixed-width product, with or
    without overflow: the square of a product is the product of the
    squares. *)
Theorem Square_multiplicative (w a b : Z) :
  0 < w ->
  Square w (int_mul w a b) = int_mul w (Square w a) (Square w b).
Proof.
  intros Hw. unfold Square, int_mul.
  rewrite (wrap_square_arg w Hw).
  rewrite (wrap_mul_l w Hw), (wrap_mul_r w Hw).
  f_equal. ring.
Qed.

Lemma Square_multiplicative_witness :
  Square 32 (int_mul 32 70000 3) = int_mul 32 (Square 32 70000) (Square 32 3).
Proof. apply Square_multiplicative. lia. Defined.

(** X2.  [Cube] is multiplicative for the fixed-width product, with or
    without overflow. *)
Theorem Cube_multiplicative (w a b : Z) :
  0 < w ->
  Cube w (int_mul w a b) = int_mul w (Cube w a) (Cube w b).
Proof.
  intros Hw. rewrite !(Cube_wrap w Hw). unfold int_mul.
  rewrite (wrap_cube_arg w Hw).
  rewrite (wrap_mul_l w Hw), (wrap_mul_r w Hw).
  f_equal. ring.
Qed.

Lemma Cube_multiplicative_witness :
  Cube 32 (int_mul 32 2000 3) = int_mul 32 (Cube 32 2000) (Cube 32 3).
Proof. apply Cube_multiplicative. lia. Defined.

(** X3.  The two functions commute: squaring a cube and cubing a square
    give the same [int], with or without overflow. *)
Theorem Square_Cube_commute (w n : Z) :
  0 < w ->
  Square w (Cube w n) = Cube w (Square w n).
Proof.
  intros Hw. rewrite (Cube_wrap w Hw (Square w n)).
  unfold Square, int_mul. rewrite (Cube_wrap w Hw n).
  rewrite (wrap_square_arg w Hw), (wrap_cube_arg w Hw).
  f_equal. ring.
Qed.

Lemma Square_Cube_commute_witness :
  Square 32 (Cube 32 (-77)) = Cube 32 (Square 32 (-77)).
Proof. apply Square_Cube_commute. lia. Defined.

(** X4.  The grouping of the two products in [Cube] does not matter:
    [number * (number * number)] gives the same [int] as the source's
    [(number * number) * number], with or without overflow. *)
Theorem Cube_regrouped (w n : Z) :
  0 < w ->
  Cube w n = int_mul w n (int_mul w n n).
Proof.
  intros Hw. rewrite (Cube_wrap w Hw). unfold int_mul.
  rewrite (wrap_mul_r w Hw). f_equal. ring.
Qed.

Lemma Cube_regrouped_witness :
  Cube 32 123456 = int_mul 32 123456 (int_mul 32 123456 123456).
Proof. apply Cube_regrouped. lia. Defined.

(** X5.  On arguments whose cubes are representable, [Cube] is strictly
    increasing, hence injective. *)
Theorem Cube_strictly_increasing (w a b : Z) :
  0 < w -> in_range w (a * a * a) -> in_range w (b * b * b) ->
  (a < b <-> Cube w a < Cube w b) /\ (Cube w a = Cube w b <-> a = b).
Proof.
  intros Hw Ha Hb.
  rewrite (Cube_exact w Hw a Ha), (Cube_exact w Hw b Hb).
  split; [apply cube_lt_iff |].
  split; [| intros ->; reflexivity].
  intros E. destruct (Z.lt_trichotomy a b) as [L | [Q | G]]; [| exact Q |].
  - apply cube_lt in L. lia.
  - apply cube_lt in G. lia.
Qed.

Lemma Cube_strictly_increasing_witness :
  (-1290 < 1290 <-> Cube 32 (-1290) < Cube 32 1290) /\
  (Cube 32 (-1290) = Cube 32 1290 <-> -1290 = 1290).
Proof.
  apply Cube_strictly_increasing; [lia | range32 ..].
Defined.

(** X6.  On arguments whose squares are representable, [Square] orders
    its arguments by absolute value, and two arguments have the same
    square exactly when they agree up to sign. *)
Theorem Square_orders_by_abs (w a b : Z) :
  0 < w -> in_range w (a * a) -> in_range w (b * b) ->
  (Z.abs a < Z.abs b <-> Square w a < Square w b) /\
  (Square w a = Square w b <-> Z.abs a = Z.abs b).
Proof.
  intros Hw Ha Hb.
  rewrite (Square_exact w Hw a Ha), (Square_exact w Hw b Hb).
  split; [apply square_lt_iff |].
  pose proof (square_lt_iff a b) as L. pose proof (square_lt_iff b a) as G.
  split; intros E.
  - destruct (Z.lt_trichotomy (Z.abs a) (Z.abs b)) as [C | [C | C]];
      [apply L in C; lia | exact C | apply G in C; lia].
  - rewrite <- (Z.abs_square a), <- (Z.abs_square b), E. reflexivity.
Qed.

Lemma Square_orders_by_abs_witness :
  (Z.abs (-46340) < Z.abs 7 <-> Square 32 (-46340) < Square 32 7) /\
  (Square 32 (-46340) = Square 32 7 <-> Z.abs (-46340) = Z.abs 7).
Proof.
  apply Square_orders_by_abs; [lia | range32 ..].
Defined.

(** X7.  On an argument whose cube is representable, [Cube] keeps the
    sign of its argument and does not shrink its magnitude; in particular
    it returns zero only for zero. *)
Theorem Cube_sign_and_growth (w n : Z) :
  0 < w -> in_range w (n * n * n) ->
  Z.sgn (Cube w n) = Z.sgn n /\ Z.abs n <= Z.abs (Cube w n) /\
  (Cube w n = 0 <-> n = 0).
Proof.
  intros Hw Hr. rewrite (Cube_exact w Hw n Hr).
  assert (Hs : 0 <= n * n) by apply Z.square_nonneg.
  assert (Hz : n * n = 0 <-> n = 0) by nia.
  split; [| split].
  - rewrite Z.sgn_mul.
    destruct (Z.eq_dec n 0) as [-> | Ne]; [reflexivity |].
    rewrite (Z.sgn_pos (n * n)) by lia. lia.
  - rewrite Z.abs_mul, (Z.abs_eq (n * n)) by assumption.
    pose proof (Z.abs_nonneg n).
    destruct (Z.eq_dec n 0) as [-> | Ne]; [simpl; lia |].
    assert (1 <= n * n) by lia. nia.
  - split; [| intros ->; reflexivity].
    intros E. apply Z.mul_eq_0 in E. lia.
Qed.

Lemma Cube_sign_and_growth_witness :
  Z.sgn (Cube 32 (-1290)) = Z.sgn (-1290) /\
  Z.abs (-1290) <= Z.abs (Cube 32 (-1290)) /\
  (Cube 32 (-1290) = 0 <-> -1290 = 0).
Proof.
  apply Cube_sign_and_growth; [lia | range32].
Defined.

(** X8.  On an argument whose square is representable, [Square] is at
    least the magnitude of its argument and is zero only for zero. *)
Theorem Square_growth_and_zero (w n : Z) :
  0 < w -> in_range w (n * n) ->
  Z.abs n <= Square w n /\ (Square w n = 0 <-> n = 0).
Proof.
  intros Hw Hr. rewrite (Square_exact w Hw n Hr).
  split; [| nia].
  rewrite <- (Z.abs_square n). pose proof (Z.abs_nonneg n) as Hn.
  revert Hn. generalize (Z.abs n). intros x Hx. nia.
Qed.

Lemma Square_growth_and_zero_witness :
  Z.abs (-46340) <= Square 32 (-46340) /\ (Square 32 (-46340) = 0 <-> -46340 = 0).
Proof.
  apply Square_growth_and_zero; [lia | range32].
Defined.

(** X9.  With a 32-bit [int] the cube is representable exactly for
    [-1290 <= n <= 1290]; the first argument beyond already wraps to a
    value of the opposite sign, and [Cube] returns zero for the nonzero
    argument 2048. *)
Theorem Cube_safe_range_32 :
  (forall n, in_range 32 (n * n * n) <-> -1290 <= n <= 1290) /\
  Cube 32 1291 < 0 /\ 0 < Cube 32 (-1291) /\ Cube 32 2048 = 0.
Proof.
  split; [| repeat split].
  intros n. unfold in_range, min_int, max_int, half_modulus. simpl.
  split.
  - intros [Lo Hi]. split.
    + destruct (Z_lt_le_dec n (-1290)) as [L | G]; [| exact G].
      assert (n + 1 <= -1290) as L' by lia.
      apply Z.le_lteq in L' as [L' | L'].
      * apply cube_lt in L'. lia.
      * assert (n = -1291) as -> by lia. lia.
    + destruct (Z_lt_le_dec 1290 n) as [L | G]; [| exact G].
      assert (1290 <= n - 1) as L' by lia.
      apply Z.le_lteq in L' as [L' | L'].
      * apply cube_lt in L'. lia.
      * assert (n = 1291) as -> by lia. lia.
  - intros [Lo Hi].
    apply Z.le_lteq in Lo as [Lo | <-]; [| lia].
    apply Z.le_lteq in Hi as [Hi | ->]; [| lia].
    apply cube_lt in Lo. apply cube_lt in Hi. lia.
Qed.

(** X10.  Read at the language level, where an overflowing product has no
    result, [Cube] has a result exactly when the exact cube is
    representable, and the result is then that cube: the inner product
    [number * number] never overflows on its own. *)
Theorem Cube_defined_iff (w n v : Z) :
  1 < w ->
  Cube_defined w n = Some v <-> in_range w (n * n * n) /\ v = n * n * n.
Proof.
  intros Hw. assert (Hp : 0 < w) by lia. split.
  - unfold Cube_defined.
    destruct (checked_mul w n n) as [sq |] eqn:E; [| discriminate].
    apply checked_mul_Some in E as [_ ->]. apply checked_mul_Some.
  - intros [Hr ->]. apply Cube_defined_safe; assumption.
Qed.

Lemma Cube_defined_iff_witness :
  Cube_defined 32 1290 = Some 2146689000 <->
  in_range 32 (1290 * 1290 * 1290) /\ 2146689000 = 1290 * 1290 * 1290.
Proof. apply Cube_defined_iff. lia. Defined.

(** X11.  Overflow or not, [Square] and [Cube] return an even [int] for an
    even argument and an odd one for an odd argument. *)
Theorem Square_Cube_parity (w n : Z) :
  0 < w ->
  Z.even (Square w n) = Z.even n /\ Z.even (Cube w n) = Z.even n.
Proof.
  intros Hw. rewrite (Cube_wrap w Hw). unfold Square, int_mul.
  rewrite !(wrap_even w Hw), !Z.even_mul.
  destruct (Z.even n); split; reflexivity.
Qed.

Lemma Square_Cube_parity_witness :
  Z.even (Square 32 46341) = Z.even 46341 /\
  Z.even (Cube 32 46341) = Z.even 46341.
Proof. apply Square_Cube_parity. lia. Defined.

(** X12.  At the most negative [int] both functions overflow and return
    zero, on every width of at least two bits. *)
Theorem Square_Cube_min_int (w : Z) :
  2 <= w ->
  Square w (min_int w) = 0 /\ Cube w (min_int w) = 0.
Proof.
  intros Hw. assert (Hp : 0 < w) by lia.
  pose proof (modulus_double w Hp) as Hm.
  pose proof (modulus_double (w - 1) ltac:(lia)) as Hh.
  unfold modulus at 1 in Hh. fold (half_modulus w) in Hh.
  assert (Hz : wrap w 0 = 0).
  { apply (wrap_small w Hp). pose proof (half_modulus_pos w Hp).
    unfold in_range, min_int, max_int. lia. }
  rewrite (Cube_wrap w Hp). unfold Square, int_mul, min_int.
  split; (transitivity (wrap w 0); [| exact Hz]).
  - apply (wrap_eq_of_congr w Hp _ _ (half_modulus (w - 1))).
    rewrite Hm, Hh. ring.
  - apply (wrap_eq_of_congr w Hp _ _
             (- (half_modulus (w - 1) * half_modulus w))).
    rewrite Hm. rewrite Hh at 1. ring.
Qed.

Lemma Square_Cube_min_int_witness :
  Square 32 (min_int 32) = 0 /\ Cube 32 (min_int 32) = 0.
Proof. apply Square_Cube_min_int. lia. Defined.

(** X13.  Overflow or not, on every width of at least two bits the result
    of [Square] leaves remainder 0 or 1 modulo 4; so [Square] never
    returns [-1]. *)
Theorem Square_mod_4 (w n : Z) :
  2 <= w ->
  ((Square w n) mod 4 = 0 \/ (Square w n) mod 4 = 1) /\ Square w n <> -1.
Proof.
  intros Hw. assert (Hp : 0 < w) by lia.
  assert (Hq : (Square w n) mod 4 = ((n mod 4) * (n mod 4)) mod 4).
  { unfold Square, int_mul.
    destruct (wrap_congr w Hp (n * n)) as [k ->].
    rewrite (modulus_double w Hp).
    pose proof (modulus_double (w - 1) ltac:(lia)) as Hh.
    unfold modulus at 1 in Hh. fold (half_modulus w) in Hh. rewrite Hh.
    replace (n * n + k * (2 * (2 * half_modulus (w - 1))))
      with (n * n + (k * half_modulus (w - 1)) * 4) by ring.
    rewrite Z.mod_add by lia. apply Z.mul_mod. lia. }
  assert (Hc : (Square w n) mod 4 = 0 \/ (Square w n) mod 4 = 1).
  { rewrite Hq. pose proof (Z.mod_pos_bound n 4 ltac:(lia)) as Hb.
    assert (C : n mod 4 = 0 \/ n mod 4 = 1 \/ n mod 4 = 2 \/ n mod 4 = 3)
      by lia.
    destruct C as [-> | [-> | [-> | ->]]]; simpl; auto. }
  split; [exact Hc |].
  intros E. rewrite E in Hc. simpl in Hc. destruct Hc; discriminate.
Qed.

Lemma Square_mod_4_witness :
  ((Square 32 46341) mod 4 = 0 \/ (Square 32 46341) mod 4 = 1) /\
  Square 32 46341 <> -1.
Proof. apply Square_mod_4. lia. Defined.
